(** * Shallow embedding of [src/cipher.rs] of the diary tool.

    The module wraps a byte sink in an [Encryptor] and a byte source in a
    [Decryptor], both built on the STREAM construction of the [aead] crate
    ([EncryptorBE32] / [DecryptorBE32]) over XChaCha20-Poly1305, the key
    being derived with Argon2id.

    Modelling choices:
    - bytes are [Init.Byte.byte]; a [Vec<u8>] / slice is a [list byte];
    - the sink [W] is a [Vec<u8>]-like writer: [write_all] appends and
      always succeeds, [flush] does nothing;
    - the source [R] is a [&[u8]]-like reader: [read] copies
      [min (buf.len()) (remaining)] bytes and advances;
    - [OsRng] is a function [nat -> byte]: the k-th byte drawn from the OS;
    - XChaCha20-Poly1305 and Argon2id are abstract functions packed in
      [Primitives], with the functional-correctness facts of the real
      primitives (a ciphertext is the plaintext plus a 16-byte tag,
      decryption inverts encryption, Argon2 fills the 32-byte output);
    - every Rust call either returns [Ok], returns an [io::Error] or
      panics: the [outcome] type. *)

From Stdlib Require Import List ZArith Lia Bool PeanoNat Strings.Byte.
Import ListNotations.
Open Scope nat_scope.

Definition byte := Init.Byte.byte.

(** ** Results of Rust calls *)

Inductive io_error_kind := Other | UnexpectedEof.

Inductive outcome (A : Type) : Type :=
| Ok (a : A)
| Err (e : io_error_kind)
| Panic.
Arguments Ok {A} a.
Arguments Err {A} e.
Arguments Panic {A}.

(** ** Constants *)

Definition NONCE_SIZE : nat := 24.
Definition SALT_SIZE : nat := 16.
Definition CHUNK_SIZE : nat := 1024.

(** Library constants: XChaCha20-Poly1305 has a 24-byte nonce and a
    16-byte tag; [StreamBE32] spends 5 bytes of that nonce on the counter
    (4 bytes, big endian) and the last-block flag (1 byte), so its
    [Nonce<A, StreamBE32<A>>] is a [GenericArray] of 24 - 5 = 19 bytes.
    [COUNTER_MAX] is [u32::MAX]. *)
Definition XCHACHA_NONCE_SIZE : nat := 24.
Definition BE32_NONCE_OVERHEAD : nat := 5.
Definition STREAM_NONCE_SIZE : nat := XCHACHA_NONCE_SIZE - BE32_NONCE_OVERHEAD.
Definition TAG_SIZE : nat := 16.
Definition KEY_SIZE : nat := 32.
Definition COUNTER_MAX : Z := 4294967295%Z.
Definition MAX_PWD_LEN : Z := 4294967295%Z.

(** ** Primitives *)

Record Primitives := {
  (** Argon2id with [Params::DEFAULT], writing into a 32-byte buffer *)
  argon2id : list byte -> list byte -> list byte;
  argon2id_len : forall p s, length (argon2id p s) = KEY_SIZE;
  (** XChaCha20-Poly1305 encryption and decryption: key, 24-byte nonce,
      message (no associated data) *)
  seal : list byte -> list byte -> list byte -> list byte;
  open : list byte -> list byte -> list byte -> option (list byte);
  seal_len : forall k n m, length (seal k n m) = length m + TAG_SIZE;
  open_seal : forall k n m, open k n (seal k n m) = Some m;
  open_len : forall k n c m, open k n c = Some m -> length c = length m + TAG_SIZE
}.

Section Code.
Variable prims : Primitives.

(** [GenericArray::<u8, N>::from_slice]: asserts [slice.len() == N]. *)
Definition from_slice (n : nat) (s : list byte) : outcome (list byte) :=
  if Nat.eqb (length s) n then Ok s else Panic.

(** [hash_password] (lines 12-20). [hash_password_into] fails only on a
    password longer than [u32::MAX] bytes here: the salt is 16 bytes
    (at least the minimum 8) and the 32-byte output is within bounds. *)
Definition hash_password (password salt : list byte) : outcome (list byte) :=
  if (Z.of_nat (length password) >? MAX_PWD_LEN)%Z then Err Other
  else Ok (argon2id prims password salt).

(** [OsRng.fill_bytes] on an [n]-byte array, the bytes drawn from offset [d]. *)
Definition fill_bytes (rng : nat -> byte) (d n : nat) : list byte :=
  map rng (seq d n).

(** *** The [aead::stream] STREAM objects, BE32 flavour *)

Record StreamBE32 := mkStream {
  aead_key : list byte;       (* the XChaCha20Poly1305 cipher *)
  stream_nonce : list byte;   (* 19 bytes *)
  position : Z                (* u32 counter *)
}.

(** [position.to_be_bytes()] *)
Definition be32 (p : Z) : list byte :=
  map (fun i => match Byte.of_N (Z.to_N (Z.land (Z.shiftr p (Z.of_nat (8 * i))) 255)) with
                | Some b => b | None => Byte.x00 end) [3; 2; 1; 0].

(** [StreamBE32::aead_nonce]: prefix, big-endian counter, flag byte. *)
Definition aead_nonce (s : StreamBE32) (pos : Z) (last_block : bool) : list byte :=
  stream_nonce s ++ be32 pos ++ [if last_block then Byte.x01 else Byte.x00].

(** [EncryptorBE32::from_aead] / [DecryptorBE32::from_aead] *)
Definition from_aead (key : list byte) (nonce : list byte) : StreamBE32 :=
  mkStream key nonce 0%Z.

(** [encrypt_next]: refuses the counter value [COUNTER_MAX], encrypts
    under the not-last flag and increments the counter. *)
Definition encrypt_next (s : StreamBE32) (pt : list byte)
  : StreamBE32 * outcome (list byte) :=
  if (position s =? COUNTER_MAX)%Z then (s, Err Other)
  else (mkStream (aead_key s) (stream_nonce s) (position s + 1)%Z,
        Ok (seal prims (aead_key s) (aead_nonce s (position s) false) pt)).

(** [encrypt_last]: consumes the encryptor, encrypts under the last flag. *)
Definition encrypt_last (s : StreamBE32) (pt : list byte) : outcome (list byte) :=
  Ok (seal prims (aead_key s) (aead_nonce s (position s) true) pt).

(** [decrypt_next]: as [encrypt_next]; on an authentication failure the
    counter is left unchanged. *)
Definition decrypt_next (s : StreamBE32) (ct : list byte)
  : StreamBE32 * outcome (list byte) :=
  if (position s =? COUNTER_MAX)%Z then (s, Err Other)
  else match open prims (aead_key s) (aead_nonce s (position s) false) ct with
       | Some pt => (mkStream (aead_key s) (stream_nonce s) (position s + 1)%Z, Ok pt)
       | None => (s, Err Other)
       end.

(** *** [Encryptor] (lines 26-87) *)

Record Encryptor := mkEncryptor {
  enc_inner : list byte;              (* bytes written to the sink so far *)
  encryptor : option StreamBE32;
  enc_buffer : list byte
}.

(** [Encryptor::new] (lines 33-52). The first component is what the sink
    holds when the call returns or panics. *)
Definition Encryptor_new (inner key : list byte) (rng : nat -> byte)
  : list byte * outcome Encryptor :=
  let nonce := fill_bytes rng 0 NONCE_SIZE in
  let inner := inner ++ nonce in
  let salt := fill_bytes rng NONCE_SIZE SALT_SIZE in
  let inner := inner ++ salt in
  match hash_password key salt with
  | Ok key_hash =>
      match from_slice KEY_SIZE key_hash with
      | Ok k =>
          match from_slice STREAM_NONCE_SIZE nonce with
          | Ok n =>
              (inner, Ok (mkEncryptor inner (Some (from_aead k n)) []))
          | _ => (inner, Panic)
          end
      | _ => (inner, Panic)
      end
  | _ => (inner, Panic)  (* .expect(..) *)
  end.

(** The [while self.buffer.len() >= CHUNK_SIZE] loop of [write]
    (lines 59-70). Each round removes [CHUNK_SIZE] bytes, so a fuel of
    [S (length buffer)] rounds is never exhausted. *)
Fixpoint write_loop (fuel : nat) (st : Encryptor) : Encryptor * outcome unit :=
  match fuel with
  | O => (st, Ok tt)
  | S fuel' =>
      if Nat.leb CHUNK_SIZE (length (enc_buffer st)) then
        let chunk := firstn CHUNK_SIZE (enc_buffer st) in
        let st := mkEncryptor (enc_inner st) (encryptor st)
                              (skipn CHUNK_SIZE (enc_buffer st)) in
        match encryptor st with
        | None => (st, Panic)  (* .unwrap() *)
        | Some e =>
            match encrypt_next e chunk with
            | (e', Ok ct) =>
                write_loop fuel'
                  (mkEncryptor (enc_inner st ++ ct) (Some e') (enc_buffer st))
            | (e', Err k) => (mkEncryptor (enc_inner st) (Some e') (enc_buffer st), Err k)
            | (e', Panic) => (mkEncryptor (enc_inner st) (Some e') (enc_buffer st), Panic)
            end
        end
      else (st, Ok tt)
  end.

(** [Write::write] (lines 56-73). *)
Definition Encryptor_write (st : Encryptor) (buf : list byte)
  : Encryptor * outcome nat :=
  let st := mkEncryptor (enc_inner st) (encryptor st) (enc_buffer st ++ buf) in
  match write_loop (S (length (enc_buffer st))) st with
  | (st', Ok _) => (st', Ok (length buf))
  | (st', Err k) => (st', Err k)
  | (st', Panic) => (st', Panic)
  end.

(** [Write::flush] (lines 75-86). *)
Definition Encryptor_flush (st : Encryptor) : Encryptor * outcome unit :=
  if negb (Nat.eqb (length (enc_buffer st)) 0) then
    match encryptor st with
    | Some e =>
        (* self.encryptor.take() *)
        match encrypt_last e (enc_buffer st) with
        | Ok ct => (mkEncryptor (enc_inner st ++ ct) None [], Ok tt)
        | Err k => (mkEncryptor (enc_inner st) None (enc_buffer st), Err k)
        | Panic => (mkEncryptor (enc_inner st) None (enc_buffer st), Panic)
        end
    | None => (st, Ok tt)
    end
  else (st, Ok tt).

(** *** [Decryptor] (lines 89-150) *)

Record Decryptor := mkDecryptor {
  dec_inner : list byte;              (* bytes of the source not yet read *)
  decryptor : option StreamBE32;
  dec_buffer : list byte;             (* decrypted data buffer *)
  encrypted_buf : list byte           (* encrypted buffer *)
}.

(** [Read::read_exact] of an [n]-byte array from a [&[u8]] source. *)
Definition read_exact (n : nat) (inner : list byte) : outcome (list byte * list byte) :=
  if Nat.leb n (length inner) then Ok (firstn n inner, skipn n inner)
  else Err UnexpectedEof.

(** Lines 98-102 of [Decryptor::new]: the nonce, then the salt. *)
Definition Decryptor_read_header (inner : list byte)
  : outcome (list byte * list byte * list byte) :=
  match read_exact NONCE_SIZE inner with
  | Ok (nonce, inner) =>
      match read_exact SALT_SIZE inner with
      | Ok (salt, inner) => Ok (nonce, salt, inner)
      | Err k => Err k
      | Panic => Panic
      end
  | Err k => Err k
  | Panic => Panic
  end.

(** Lines 104-114 of [Decryptor::new]. *)
Definition Decryptor_init (inner key nonce salt : list byte) : outcome Decryptor :=
  match hash_password key salt with
  | Ok key_hash =>
      match from_slice KEY_SIZE key_hash with
      | Ok k =>
          match from_slice STREAM_NONCE_SIZE nonce with
          | Ok n =>
              Ok (mkDecryptor inner (Some (from_aead k n)) []
                              (repeat Byte.x00 (CHUNK_SIZE + 32)))
          | _ => Panic
          end
      | _ => Panic
      end
  | _ => Panic  (* .expect(..) *)
  end.

(** [Decryptor::new] (lines 97-115). *)
Definition Decryptor_new (inner key : list byte) : outcome Decryptor :=
  match Decryptor_read_header inner with
  | Ok (nonce, salt, inner) => Decryptor_init inner key nonce salt
  | Err k => Err k
  | Panic => Panic
  end.

(** [out_buf[..to_copy].copy_from_slice(&src[..to_copy])] *)
Definition copy_prefix (to_copy : nat) (src out_buf : list byte) : list byte :=
  firstn to_copy src ++ skipn to_copy out_buf.

(** [Read::read] (lines 119-149): the new contents of [out_buf] are
    returned with the count. *)
Definition Decryptor_read (st : Decryptor) (out_buf : list byte)
  : Decryptor * outcome (nat * list byte) :=
  if negb (Nat.eqb (length (dec_buffer st)) 0) then
    let to_copy := Nat.min (length out_buf) (length (dec_buffer st)) in
    (mkDecryptor (dec_inner st) (decryptor st) (skipn to_copy (dec_buffer st))
                 (encrypted_buf st),
     Ok (to_copy, copy_prefix to_copy (dec_buffer st) out_buf))
  else
    (* self.inner.read(&mut self.encrypted_buf) *)
    let n := Nat.min (length (encrypted_buf st)) (length (dec_inner st)) in
    let ebuf := copy_prefix n (dec_inner st) (encrypted_buf st) in
    let st := mkDecryptor (skipn n (dec_inner st)) (decryptor st) (dec_buffer st) ebuf in
    if Nat.eqb n 0 then (st, Ok (0, out_buf))  (* EOF *)
    else
      match decryptor st with
      | None => (st, Panic)  (* .unwrap() *)
      | Some d =>
          match decrypt_next d (firstn n ebuf) with
          | (d', Ok decrypted) =>
              let to_copy := Nat.min (length out_buf) (length decrypted) in
              let out' := copy_prefix to_copy decrypted out_buf in
              let buffer := if Nat.ltb to_copy (length decrypted)
                            then dec_buffer st ++ skipn to_copy decrypted
                            else dec_buffer st in
              (mkDecryptor (dec_inner st) (Some d') buffer ebuf, Ok (to_copy, out'))
          | (d', Err k) => (mkDecryptor (dec_inner st) (Some d') (dec_buffer st) ebuf, Err k)
          | (d', Panic) => (mkDecryptor (dec_inner st) (Some d') (dec_buffer st) ebuf, Panic)
          end
      end.

(** A caller draining the [Decryptor] with [out]-sized reads until a read
    returns [0] ([Read::read_to_end]-style). Each read returning a positive
    count consumes source bytes or buffered bytes, so a fuel of
    [2 * (length source + length buffer) + 1] is never exhausted for a
    non-empty [out]. *)
Fixpoint read_all (fuel : nat) (out : list byte) (st : Decryptor) (acc : list byte)
  : Decryptor * outcome (list byte) :=
  match fuel with
  | O => (st, Ok acc)
  | S fuel' =>
      match Decryptor_read st out with
      | (st', Ok (0, _)) => (st', Ok acc)
      | (st', Ok (k, out')) => read_all fuel' out st' (acc ++ firstn k out')
      | (st', Err e) => (st', Err e)
      | (st', Panic) => (st', Panic)
      end
  end.

Definition read_fuel (st : Decryptor) : nat :=
  2 * (length (dec_inner st) + length (dec_buffer st)) + 1.

(** Seal [P] into a fresh [Vec<u8>] (new, one write, flush), then open a
    [Decryptor] over the result with the same password and read it all
    with [CHUNK_SIZE]-byte reads. *)
Definition roundtrip (password : list byte) (rng : nat -> byte) (P : list byte)
  : outcome (list byte) :=
  match Encryptor_new [] password rng with
  | (_, Ok e) =>
      match Encryptor_write e P with
      | (e, Ok _) =>
          match Encryptor_flush e with
          | (e, Ok _) =>
              match Decryptor_new (enc_inner e) password with
              | Ok d => snd (read_all (read_fuel d) (repeat Byte.x00 CHUNK_SIZE) d [])
              | Err k => Err k
              | Panic => Panic
              end
          | (_, Err k) => Err k
          | (_, Panic) => Panic
          end
      | (_, Err k) => Err k
      | (_, Panic) => Panic
      end
  | (_, Err k) => Err k
  | (_, Panic) => Panic
  end.

(** The chunk stream STREAM produces for [N] full windows of [P]: window
    [i] sealed under counter [position s + i] with the not-last flag. *)
Fixpoint sealed_windows (s : StreamBE32) (N : nat) (P : list byte) : list (list byte) :=
  match N with
  | O => []
  | S N' =>
      seal prims (aead_key s) (aead_nonce s (position s) false) (firstn CHUNK_SIZE P)
      :: sealed_windows (mkStream (aead_key s) (stream_nonce s) (position s + 1)%Z) N'
                        (skipn CHUNK_SIZE P)
  end.

(** The shape [Decryptor::new] gives the decryptor's buffers: a
    [CHUNK_SIZE + 32]-byte ciphertext buffer and a plaintext buffer of at
    most one decrypted window. *)
Definition dec_inv (st : Decryptor) : Prop :=
  length (encrypted_buf st) = CHUNK_SIZE + 32 /\
  length (dec_buffer st) <= CHUNK_SIZE + 32 - TAG_SIZE.

End Code.

(** ** A computable instance of the primitives

    Used only to evaluate the code on concrete inputs: the "tag" is the
    reversed nonce (flag byte and counter first), so a ciphertext only
    opens under the nonce it was sealed with. *)
Module Toy.

Definition tag (k n : list byte) : list byte := firstn TAG_SIZE (rev n ++ repeat Byte.x00 TAG_SIZE).

Lemma tag_len : forall k n, length (tag k n) = TAG_SIZE.
Proof.
  intros k n. unfold tag. rewrite firstn_length_le; [reflexivity|].
  rewrite length_app, repeat_length. lia.
Qed.

Definition t_seal (k n m : list byte) : list byte := m ++ tag k n.

Definition t_open (k n c : list byte) : option (list byte) :=
  if Nat.ltb (length c) TAG_SIZE then None
  else if list_eq_dec Byte.byte_eq_dec (skipn (length c - TAG_SIZE) c) (tag k n)
       then Some (firstn (length c - TAG_SIZE) c) else None.

Definition t_argon2id (p s : list byte) : list byte := repeat Byte.x2a KEY_SIZE.

Lemma t_seal_len : forall k n m, length (t_seal k n m) = length m + TAG_SIZE.
Proof. intros. unfold t_seal. rewrite length_app, tag_len. reflexivity. Qed.

Lemma t_open_seal : forall k n m, t_open k n (t_seal k n m) = Some m.
Proof.
  intros. unfold t_open. rewrite t_seal_len.
  replace (Nat.ltb (length m + TAG_SIZE) TAG_SIZE) with false
    by (symmetry; apply Nat.ltb_ge; lia).
  replace (length m + TAG_SIZE - TAG_SIZE) with (length m) by lia.
  unfold t_seal. rewrite skipn_app, firstn_app, skipn_all, firstn_all, Nat.sub_diag.
  simpl. destruct (list_eq_dec Byte.byte_eq_dec (tag k n) (tag k n)) as [_|C];
    [rewrite app_nil_r; reflexivity | congruence].
Qed.

Lemma t_open_len : forall k n c m, t_open k n c = Some m -> length c = length m + TAG_SIZE.
Proof.
  unfold t_open. intros k n c m H.
  destruct (Nat.ltb_spec (length c) TAG_SIZE); [discriminate|].
  destruct (list_eq_dec _ _ _); [|discriminate].
  injection H as <-. rewrite firstn_length_le; lia.
Qed.

Lemma t_argon2id_len : forall p s, length (t_argon2id p s) = KEY_SIZE.
Proof. intros. apply repeat_length. Qed.

Definition prims : Primitives :=
  {| argon2id := t_argon2id; argon2id_len := t_argon2id_len;
     seal := t_seal; open := t_open;
     seal_len := t_seal_len; open_seal := t_open_seal; open_len := t_open_len |}.

End Toy.

Definition rng0 : nat -> byte := fun i => if Nat.ltb i NONCE_SIZE then Byte.x01 else Byte.x02.
Definition pw : list byte := [Byte.x70; Byte.x77].
Definition stream0 : StreamBE32 := from_aead (repeat Byte.x2a 32) (repeat Byte.x07 19).
Definition enc0 : Encryptor := mkEncryptor [] (Some stream0) [].
Definition enc_at_max : Encryptor :=
  mkEncryptor [] (Some (mkStream (repeat Byte.x2a 32) (repeat Byte.x07 19) COUNTER_MAX)) [].
Definition dec0 (src : list byte) : Decryptor :=
  mkDecryptor src (Some stream0) [] (repeat Byte.x00 (CHUNK_SIZE + 32)).

(** ** Constructors *)

Lemma fill_bytes_length : forall rng d n, length (fill_bytes rng d n) = n.
Proof. intros. unfold fill_bytes. rewrite length_map, length_seq. reflexivity. Qed.

Lemma nonce_from_slice_panics : forall nonce,
  length nonce = NONCE_SIZE -> from_slice STREAM_NONCE_SIZE nonce = Panic.
Proof. intros nonce H. unfold from_slice. rewrite H. reflexivity. Qed.

Lemma key_from_slice_ok : forall prims p s,
  from_slice KEY_SIZE (argon2id prims p s) = Ok (argon2id prims p s).
Proof. intros. unfold from_slice. rewrite argon2id_len. reflexivity. Qed.

Lemma Encryptor_new_panics : forall prims inner key rng,
  snd (Encryptor_new prims inner key rng) = Panic.
Proof.
  intros. unfold Encryptor_new, hash_password.
  destruct (_ >? _)%Z; [reflexivity|].
  rewrite key_from_slice_ok, nonce_from_slice_panics by apply fill_bytes_length.
  reflexivity.
Qed.

Lemma Decryptor_init_panics : forall prims inner key nonce salt,
  length nonce = NONCE_SIZE -> Decryptor_init prims inner key nonce salt = Panic.
Proof.
  intros prims inner key nonce salt H. unfold Decryptor_init, hash_password.
  destruct (_ >? _)%Z; [reflexivity|].
  rewrite key_from_slice_ok, nonce_from_slice_panics by exact H. reflexivity.
Qed.

Lemma read_exact_ok : forall n l, n <= length l -> read_exact n l = Ok (firstn n l, skipn n l).
Proof. intros n l H. unfold read_exact. apply Nat.leb_le in H. rewrite H. reflexivity. Qed.

Lemma read_exact_short : forall n l, length l < n -> read_exact n l = Err UnexpectedEof.
Proof.
  intros n l H. unfold read_exact.
  destruct (Nat.leb_spec n (length l)); [lia | reflexivity].
Qed.

Lemma read_header_split : forall nonce salt rest,
  length nonce = NONCE_SIZE -> length salt = SALT_SIZE ->
  Decryptor_read_header (nonce ++ salt ++ rest) = Ok (nonce, salt, rest).
Proof.
  intros nonce salt rest Hn Hs. unfold Decryptor_read_header.
  rewrite read_exact_ok by (rewrite !length_app; lia).
  rewrite <- Hn, firstn_app, skipn_app, firstn_all, skipn_all, Nat.sub_diag. simpl.
  rewrite read_exact_ok by (rewrite !length_app; lia).
  rewrite <- Hs, firstn_app, skipn_app, firstn_all, skipn_all, Nat.sub_diag. simpl.
  rewrite !app_nil_r. reflexivity.
Qed.

(** C7 (code_bug). Both constructors panic: [Encryptor::new] for every
    password, sink and random draw, [Decryptor::new] for every source of
    at least 40 bytes. [GenericArray::from_slice] is handed the 24-byte
    nonce array where [StreamBE32] over XChaCha20-Poly1305 expects 19
    bytes. *)
Theorem constructors_panic_on_nonce_size : forall prims inner key rng src,
  NONCE_SIZE + SALT_SIZE <= length src ->
  snd (Encryptor_new prims inner key rng) = Panic /\ Decryptor_new prims src key = Panic.
Proof.
  intros prims inner key rng src Hsrc. split; [apply Encryptor_new_panics|].
  unfold Decryptor_new, Decryptor_read_header.
  rewrite read_exact_ok by (unfold NONCE_SIZE, SALT_SIZE in *; lia).
  rewrite read_exact_ok by (rewrite length_skipn; unfold NONCE_SIZE, SALT_SIZE in *; lia).
  apply Decryptor_init_panics. rewrite firstn_length_le; [reflexivity|].
  unfold NONCE_SIZE, SALT_SIZE in *; lia.
Qed.

Lemma constructors_panic_on_nonce_size_witness :
  NONCE_SIZE + SALT_SIZE <= length (repeat Byte.x00 40) /\
  snd (Encryptor_new Toy.prims [] pw rng0) = Panic /\
  Decryptor_new Toy.prims (repeat Byte.x00 40) pw = Panic.
Proof.
  split; [vm_compute; lia|].
  apply (constructors_panic_on_nonce_size Toy.prims [] pw rng0 (repeat Byte.x00 40)).
  vm_compute; lia.
Defined.

(** C1 (code_bug). The seal/unseal round trip never returns the plaintext:
    for every plaintext it panics in [Encryptor::new] (see C7). Past the
    constructors, sealing the one-byte plaintext [[0]] from a fresh
    stream state and reading it back fails authentication (evaluated with
    the computable primitives of [Toy], which reject a ciphertext under
    any other nonce): the reader decrypts the final chunk with
    [decrypt_next] (not-last flag). *)
Theorem roundtrip_fails : forall prims password rng P,
  roundtrip prims password rng P = Panic /\
  (let '(e, _) := Encryptor_write Toy.prims enc0 [Byte.x00] in
   let '(e, _) := Encryptor_flush Toy.prims e in
   snd (read_all Toy.prims (read_fuel (dec0 (enc_inner e))) (repeat Byte.x00 CHUNK_SIZE)
          (dec0 (enc_inner e)) []) = Err Other).
Proof.
  intros prims password rng P. split.
  - unfold roundtrip. pose proof (Encryptor_new_panics prims [] password rng) as H.
    destruct (Encryptor_new prims [] password rng) as [? o]. simpl in H. subst o.
    reflexivity.
  - vm_compute. reflexivity.
Qed.

(** C9 (confirmed). A source shorter than the 40-byte header (24-byte
    nonce, 16-byte salt) makes [Decryptor::new] fail with an
    [UnexpectedEof] error; no [Decryptor] is returned and nothing is
    decrypted. *)
Theorem short_container_rejected : forall prims src key,
  length src < NONCE_SIZE + SALT_SIZE ->
  Decryptor_new prims src key = Err UnexpectedEof.
Proof.
  intros prims src key H. unfold Decryptor_new, Decryptor_read_header.
  destruct (Nat.leb_spec NONCE_SIZE (length src)) as [Hle|Hlt].
  - rewrite read_exact_ok by exact Hle.
    rewrite read_exact_short by (rewrite length_skipn; lia). reflexivity.
  - rewrite read_exact_short by exact Hlt. reflexivity.
Qed.

Lemma short_container_rejected_witness :
  length (repeat Byte.x00 39) < NONCE_SIZE + SALT_SIZE /\
  Decryptor_new Toy.prims (repeat Byte.x00 39) pw = Err UnexpectedEof.
Proof.
  split; [vm_compute; lia|].
  apply short_container_rejected. vm_compute; lia.
Defined.

(** C5 (corrected, counterexample). The sink does not begin with the salt
    followed by the nonce: with nonce bytes [0x01] and salt bytes [0x02],
    [Encryptor::new] writes the nonce first. *)
Lemma header_salt_first_cex :
  fst (Encryptor_new Toy.prims [] pw rng0)
  <> fill_bytes rng0 NONCE_SIZE SALT_SIZE ++ fill_bytes rng0 0 NONCE_SIZE.
Proof. vm_compute. discriminate. Qed.

(** C5 (corrected, amended). [Encryptor::new] writes the 24-byte nonce and
    then the 16-byte salt, with no length prefix, whether or not it then
    returns; [Decryptor::new] reads the first 24 bytes as the nonce and the
    next 16 as the salt and hands the rest of the source to the codec. *)
Theorem header_layout_nonce_then_salt : forall prims inner key rng nonce salt rest,
  length nonce = NONCE_SIZE -> length salt = SALT_SIZE ->
  fst (Encryptor_new prims inner key rng)
    = inner ++ fill_bytes rng 0 NONCE_SIZE ++ fill_bytes rng NONCE_SIZE SALT_SIZE /\
  Decryptor_read_header (nonce ++ salt ++ rest) = Ok (nonce, salt, rest) /\
  Decryptor_new prims (nonce ++ salt ++ rest) key = Decryptor_init prims rest key nonce salt.
Proof.
  intros prims inner key rng nonce salt rest Hn Hs.
  assert (Hh : Decryptor_read_header (nonce ++ salt ++ rest) = Ok (nonce, salt, rest))
    by (apply read_header_split; assumption).
  split; [|split; [exact Hh|]].
  - unfold Encryptor_new. rewrite app_assoc.
    destruct (hash_password prims key _) as [kh| |]; [|reflexivity|reflexivity].
    destruct (from_slice KEY_SIZE kh); [|reflexivity|reflexivity].
    destruct (from_slice STREAM_NONCE_SIZE _); reflexivity.
  - unfold Decryptor_new. rewrite Hh. reflexivity.
Qed.

Lemma header_layout_nonce_then_salt_witness :
  length (repeat Byte.x01 24) = NONCE_SIZE /\ length (repeat Byte.x02 16) = SALT_SIZE /\
  fst (Encryptor_new Toy.prims [] pw rng0)
    = [] ++ fill_bytes rng0 0 NONCE_SIZE ++ fill_bytes rng0 NONCE_SIZE SALT_SIZE /\
  Decryptor_read_header (repeat Byte.x01 24 ++ repeat Byte.x02 16 ++ [Byte.x03])
    = Ok (repeat Byte.x01 24, repeat Byte.x02 16, [Byte.x03]) /\
  Decryptor_new Toy.prims (repeat Byte.x01 24 ++ repeat Byte.x02 16 ++ [Byte.x03]) pw
    = Decryptor_init Toy.prims [Byte.x03] pw (repeat Byte.x01 24) (repeat Byte.x02 16).
Proof.
  split; [reflexivity|]. split; [reflexivity|].
  apply header_layout_nonce_then_salt; reflexivity.
Defined.

(** ** The encryptor's chunking loop *)

Ltac arith := unfold CHUNK_SIZE, TAG_SIZE, NONCE_SIZE, SALT_SIZE, COUNTER_MAX in *; lia.

Lemma write_loop_stop : forall prims f st,
  length (enc_buffer st) < CHUNK_SIZE -> write_loop prims f st = (st, Ok tt).
Proof.
  intros prims [|f] st H; [reflexivity|]. cbn [write_loop].
  destruct (Nat.leb_spec CHUNK_SIZE (length (enc_buffer st))); [lia | reflexivity].
Qed.

Lemma write_loop_step : forall prims f inner k n p buf,
  CHUNK_SIZE <= length buf -> (p <> COUNTER_MAX)%Z ->
  write_loop prims (S f) (mkEncryptor inner (Some (mkStream k n p)) buf) =
  write_loop prims f
    (mkEncryptor (inner ++ seal prims k (aead_nonce (mkStream k n p) p false) (firstn CHUNK_SIZE buf))
                 (Some (mkStream k n (p + 1)%Z)) (skipn CHUNK_SIZE buf)).
Proof.
  intros prims f inner k n p buf Hb Hp. cbn [write_loop enc_buffer enc_inner encryptor].
  apply Nat.leb_le in Hb. rewrite Hb. unfold encrypt_next.
  cbn [position aead_key stream_nonce].
  apply Z.eqb_neq in Hp. rewrite Hp. reflexivity.
Qed.

Lemma write_loop_windows : forall prims N f k n p inner P R,
  length P = N * CHUNK_SIZE -> length R < CHUNK_SIZE -> N < f ->
  (p + Z.of_nat N <= COUNTER_MAX)%Z ->
  write_loop prims f (mkEncryptor inner (Some (mkStream k n p)) (P ++ R)) =
  (mkEncryptor (inner ++ concat (sealed_windows prims (mkStream k n p) N P))
               (Some (mkStream k n (p + Z.of_nat N)%Z)) R, Ok tt).
Proof.
  induction N as [|N IH]; intros f k n p inner P R HP HR Hf Hp.
  - destruct P; [|discriminate]. simpl. rewrite write_loop_stop by exact HR.
    rewrite app_nil_r, Z.add_0_r. reflexivity.
  - destruct f as [|f]; [lia|].
    assert (HP1 : CHUNK_SIZE <= length P) by (rewrite HP; arith).
    rewrite Nat2Z.inj_succ in Hp.
    rewrite write_loop_step by (rewrite ?length_app; arith).
    rewrite firstn_app, skipn_app.
    replace (CHUNK_SIZE - length P) with 0 by lia. cbn [firstn skipn].
    rewrite app_nil_r.
    rewrite IH by (rewrite ?length_skipn; arith).
    cbn [sealed_windows concat position aead_key stream_nonce].
    rewrite <- app_assoc. f_equal. f_equal. f_equal. f_equal. lia.
Qed.

Lemma sealed_windows_length : forall prims N s P,
  length (sealed_windows prims s N P) = N.
Proof. induction N; intros; simpl; [reflexivity | rewrite IHN; reflexivity]. Qed.

Lemma sealed_windows_chunk_length : forall prims N s P,
  length P = N * CHUNK_SIZE ->
  Forall (fun c => length c = CHUNK_SIZE + TAG_SIZE) (sealed_windows prims s N P).
Proof.
  induction N as [|N IH]; intros s P HP; cbn [sealed_windows]; constructor.
  - rewrite seal_len, firstn_length_le; [reflexivity | rewrite HP; arith].
  - apply IH. rewrite length_skipn, HP. arith.
Qed.

(** C4 (corrected, counterexample). A plaintext of exactly one window
    gives one 1040-byte chunk and no terminal chunk: the flushed sink
    holds 1040 bytes, not 1040 plus the 16 bytes of an empty last chunk. *)
Lemma exact_window_no_empty_final_chunk_cex :
  let '(e, _) := Encryptor_write Toy.prims enc0 (repeat Byte.x05 CHUNK_SIZE) in
  let '(e, _) := Encryptor_flush Toy.prims e in
  length (enc_inner e) = CHUNK_SIZE + TAG_SIZE.
Proof. vm_compute. reflexivity. Qed.

(** C4 (corrected, amended). From a fresh stream state (empty buffer,
    counter 0), writing a plaintext of exactly [N * 1024] bytes
    ([N <= u32::MAX]) and flushing appends exactly [N] chunks of
    [1024 + 16] bytes, chunk [i] being window [i] sealed under counter [i]
    with the not-last flag, and nothing else: [flush] emits a final chunk
    only when its buffer is non-empty. *)
Theorem exact_windows_no_terminal_chunk : forall prims k n inner N P,
  length P = N * CHUNK_SIZE -> (Z.of_nat N <= COUNTER_MAX)%Z ->
  let '(e1, r1) := Encryptor_write prims (mkEncryptor inner (Some (from_aead k n)) []) P in
  let '(e2, r2) := Encryptor_flush prims e1 in
  r1 = Ok (length P) /\ r2 = Ok tt /\
  enc_inner e2 = inner ++ concat (sealed_windows prims (from_aead k n) N P) /\
  length (sealed_windows prims (from_aead k n) N P) = N /\
  Forall (fun c => length c = CHUNK_SIZE + TAG_SIZE) (sealed_windows prims (from_aead k n) N P).
Proof.
  intros prims k n inner N P HP HN. unfold Encryptor_write, from_aead.
  cbn [enc_buffer enc_inner encryptor app].
  pose proof (write_loop_windows prims N (S (length P)) k n 0 inner P [] HP) as W.
  rewrite app_nil_r in W. rewrite W by (cbn [length]; arith).
  unfold Encryptor_flush. cbn [enc_buffer length Nat.eqb negb].
  split; [reflexivity|]. split; [reflexivity|]. split; [reflexivity|].
  split; [apply sealed_windows_length | apply sealed_windows_chunk_length; exact HP].
Qed.

Lemma exact_windows_no_terminal_chunk_witness :
  length (repeat Byte.x05 CHUNK_SIZE) = 1 * CHUNK_SIZE /\ (Z.of_nat 1 <= COUNTER_MAX)%Z /\
  let '(e1, r1) := Encryptor_write Toy.prims
                     (mkEncryptor [] (Some (from_aead (repeat Byte.x2a 32) (repeat Byte.x07 19))) [])
                     (repeat Byte.x05 CHUNK_SIZE) in
  let '(e2, r2) := Encryptor_flush Toy.prims e1 in
  r1 = Ok (length (repeat Byte.x05 CHUNK_SIZE)) /\ r2 = Ok tt /\
  enc_inner e2 = [] ++ concat (sealed_windows Toy.prims (from_aead (repeat Byte.x2a 32) (repeat Byte.x07 19)) 1 (repeat Byte.x05 CHUNK_SIZE)) /\
  length (sealed_windows Toy.prims (from_aead (repeat Byte.x2a 32) (repeat Byte.x07 19)) 1 (repeat Byte.x05 CHUNK_SIZE)) = 1 /\
  Forall (fun c => length c = CHUNK_SIZE + TAG_SIZE) (sealed_windows Toy.prims (from_aead (repeat Byte.x2a 32) (repeat Byte.x07 19)) 1 (repeat Byte.x05 CHUNK_SIZE)).
Proof.
  split; [reflexivity|]. split; [unfold COUNTER_MAX; lia|].
  apply exact_windows_no_terminal_chunk; [reflexivity | unfold COUNTER_MAX; lia].
Defined.

(** ** Buffer bounds *)

Lemma write_loop_bounded : forall prims f st st' r,
  length (enc_buffer st) < S f * CHUNK_SIZE ->
  write_loop prims f st = (st', Ok r) -> length (enc_buffer st') < CHUNK_SIZE.
Proof.
  induction f as [|f IH]; intros st st' r Hlen Hrun.
  - cbn [write_loop] in Hrun. injection Hrun as <- _. arith.
  - cbn [write_loop] in Hrun.
    destruct (Nat.leb_spec CHUNK_SIZE (length (enc_buffer st))) as [Hge|Hlt].
    + cbn [encryptor enc_inner enc_buffer] in Hrun.
      destruct (encryptor st) as [e|]; [|discriminate].
      destruct (encrypt_next prims e _) as [e' [ct| |]]; try discriminate.
      refine (IH _ _ _ _ Hrun). cbn [enc_buffer]. rewrite length_skipn. arith.
    + injection Hrun as <- _. exact Hlt.
Qed.

Lemma Encryptor_write_bounded : forall prims st buf st' n,
  Encryptor_write prims st buf = (st', Ok n) -> length (enc_buffer st') < CHUNK_SIZE.
Proof.
  intros prims st buf st' n H. unfold Encryptor_write in H.
  destruct (write_loop _ _ _) as [st'' [u| |]] eqn:W; try discriminate.
  injection H as <- _. refine (write_loop_bounded _ _ _ _ _ _ W). cbn [enc_buffer]. arith.
Qed.

Lemma copy_prefix_length : forall n src out,
  n <= length src -> n <= length out -> length (copy_prefix n src out) = length out.
Proof.
  intros n src out H1 H2. unfold copy_prefix.
  rewrite length_app, firstn_length_le, length_skipn by exact H1. lia.
Qed.

Lemma Decryptor_read_inv : forall prims st out,
  dec_inv st -> dec_inv (fst (Decryptor_read prims st out)).
Proof.
  intros prims [inner dopt buf ebuf] out [He Hb].
  cbn [encrypted_buf dec_buffer] in He, Hb.
  unfold Decryptor_read. cbn [dec_buffer dec_inner decryptor encrypted_buf].
  destruct buf as [|b0 buf].
  - cbn [length Nat.eqb negb].
    set (m := Nat.min (length ebuf) (length inner)).
    assert (Hl : length (copy_prefix m inner ebuf) = CHUNK_SIZE + 32)
      by (rewrite copy_prefix_length; unfold m; lia).
    destruct (Nat.eqb m 0).
    + split; cbn [fst encrypted_buf dec_buffer length]; [exact Hl | arith].
    + destruct dopt as [d|]; cbn [decryptor];
        [|split; cbn [fst encrypted_buf dec_buffer length]; [exact Hl | arith]].
      unfold decrypt_next.
      destruct (position d =? COUNTER_MAX)%Z;
        [split; cbn [fst encrypted_buf dec_buffer length]; [exact Hl | arith]|].
      destruct (open prims _ _ _) as [pt|] eqn:Ho;
        [|split; cbn [fst encrypted_buf dec_buffer length]; [exact Hl | arith]].
      apply open_len in Ho. rewrite length_firstn, Hl in Ho.
      split; cbn [fst encrypted_buf dec_buffer]; [exact Hl|].
      destruct (Nat.ltb _ _); [|cbn [length]; arith].
      rewrite length_app, length_skipn. cbn [length]. lia.
  - cbn [length Nat.eqb negb].
    split; cbn [fst encrypted_buf dec_buffer]; [exact He|]. rewrite length_skipn.
    cbn [length] in *. lia.
Qed.

(** C10 (corrected, counterexample). When [encrypt_next] fails (counter at
    [u32::MAX]) the [?] returns the error with a full window still in the
    buffer: writing 2048 bytes leaves 1024 buffered bytes. *)
Lemma write_error_leaves_full_window_cex :
  snd (Encryptor_write Toy.prims enc_at_max (repeat Byte.x00 2048)) = Err Other /\
  ~ (length (enc_buffer (fst (Encryptor_write Toy.prims enc_at_max (repeat Byte.x00 2048))))
     < CHUNK_SIZE).
Proof. vm_compute. split; [reflexivity | lia]. Qed.

(** C10 (corrected, amended). After every call to [Encryptor::write] that
    returns [Ok], the plaintext buffer holds fewer than 1024 bytes; a
    [Decryptor] set up as [Decryptor::new] does (empty plaintext buffer,
    [CHUNK_SIZE + 32]-byte ciphertext buffer) keeps, after every
    [Decryptor::read], at most [1024 + 32 - 16 = 1040] buffered plaintext
    bytes: the plaintext of one ciphertext window. *)
Theorem bounded_buffers : forall prims st buf st' n d ebuf dst out,
  Encryptor_write prims st buf = (st', Ok n) ->
  length ebuf = CHUNK_SIZE + 32 -> dec_inv dst ->
  length (enc_buffer st') < CHUNK_SIZE /\
  dec_inv (mkDecryptor d (Some (from_aead [] [])) [] ebuf) /\
  length (dec_buffer (fst (Decryptor_read prims dst out))) <= CHUNK_SIZE + 32 - TAG_SIZE /\
  dec_inv (fst (Decryptor_read prims dst out)).
Proof.
  intros prims st buf st' n d ebuf dst out Hw He Hd.
  split; [exact (Encryptor_write_bounded _ _ _ _ _ Hw)|].
  split; [split; cbn [encrypted_buf dec_buffer length]; [exact He | arith]|].
  pose proof (Decryptor_read_inv prims dst out Hd) as [_ H]. split; [exact H|].
  apply Decryptor_read_inv; exact Hd.
Qed.

Lemma bounded_buffers_witness :
  Encryptor_write Toy.prims enc0 [Byte.x00]
    = (fst (Encryptor_write Toy.prims enc0 [Byte.x00]), Ok 1) /\
  length (repeat Byte.x00 (CHUNK_SIZE + 32)) = CHUNK_SIZE + 32 /\
  dec_inv (dec0 [Byte.x01]) /\
  length (enc_buffer (fst (Encryptor_write Toy.prims enc0 [Byte.x00]))) < CHUNK_SIZE /\
  dec_inv (mkDecryptor [] (Some (from_aead [] [])) [] (repeat Byte.x00 (CHUNK_SIZE + 32))) /\
  length (dec_buffer (fst (Decryptor_read Toy.prims (dec0 [Byte.x01]) (repeat Byte.x00 4))))
    <= CHUNK_SIZE + 32 - TAG_SIZE /\
  dec_inv (fst (Decryptor_read Toy.prims (dec0 [Byte.x01]) (repeat Byte.x00 4))).
Proof.
  assert (Hw : Encryptor_write Toy.prims enc0 [Byte.x00]
               = (fst (Encryptor_write Toy.prims enc0 [Byte.x00]), Ok 1)) by (vm_compute; reflexivity).
  assert (Hd : dec_inv (dec0 [Byte.x01])) by (split; vm_compute; [reflexivity | lia]).
  split; [exact Hw|]. split; [reflexivity|]. split; [exact Hd|].
  exact (bounded_buffers Toy.prims enc0 [Byte.x00] _ 1 [] (repeat Byte.x00 (CHUNK_SIZE + 32))
           (dec0 [Byte.x01]) (repeat Byte.x00 4) Hw eq_refl Hd).
Defined.

(** ** Finalization *)

(** C8 (corrected, counterexample). After [flush] has emitted the terminal
    chunk of the one-byte plaintext [[0]], a further one-byte [write] is
    accepted: it returns [Ok 1]. *)
Lemma write_after_finalize_accepted_cex :
  let '(e, _) := Encryptor_write Toy.prims enc0 [Byte.x00] in
  let '(e, _) := Encryptor_flush Toy.prims e in
  encryptor e = None /\ length (enc_inner e) = 1 + TAG_SIZE /\
  snd (Encryptor_write Toy.prims e [Byte.x01]) = Ok 1.
Proof. vm_compute. split; [reflexivity|]. split; reflexivity. Qed.

(** C8 (corrected, amended). A [flush] over a non-empty buffer with the
    stream encryptor present emits the buffer as the terminal chunk (last
    flag, current counter), drops the stream encryptor and clears the
    buffer; once the encryptor is gone, [flush] never emits again and
    leaves it gone, and [write] is not rejected: while the buffer stays
    below 1024 bytes it buffers the bytes and returns [Ok (buf.len())]. *)
Theorem flush_emits_terminal_once : forall prims st s st2 buf,
  encryptor st = Some s -> enc_buffer st <> [] ->
  encryptor st2 = None -> length (enc_buffer st2 ++ buf) < CHUNK_SIZE ->
  Encryptor_flush prims st
    = (mkEncryptor (enc_inner st ++ seal prims (aead_key s) (aead_nonce s (position s) true)
                                         (enc_buffer st)) None [], Ok tt) /\
  enc_inner (fst (Encryptor_flush prims st2)) = enc_inner st2 /\
  encryptor (fst (Encryptor_flush prims st2)) = None /\
  Encryptor_write prims st2 buf = (mkEncryptor (enc_inner st2) None (enc_buffer st2 ++ buf), Ok (length buf)).
Proof.
  intros prims st s st2 buf He Hb He2 Hl.
  split; [|split; [|split]].
  - unfold Encryptor_flush. rewrite He.
    destruct (enc_buffer st) as [|b bs]; [congruence|]. reflexivity.
  - unfold Encryptor_flush. rewrite He2. destruct (negb _); reflexivity.
  - unfold Encryptor_flush. rewrite He2. destruct (negb _); exact He2.
  - unfold Encryptor_write. rewrite write_loop_stop by exact Hl.
    rewrite He2. reflexivity.
Qed.

Lemma flush_emits_terminal_once_witness :
  encryptor (mkEncryptor [] (Some stream0) [Byte.x00]) = Some stream0 /\
  enc_buffer (mkEncryptor [] (Some stream0) [Byte.x00]) <> [] /\
  encryptor (mkEncryptor [Byte.x09] None []) = None /\
  length (enc_buffer (mkEncryptor [Byte.x09] None []) ++ [Byte.x01]) < CHUNK_SIZE /\
  Encryptor_flush Toy.prims (mkEncryptor [] (Some stream0) [Byte.x00])
    = (mkEncryptor ([] ++ seal Toy.prims (aead_key stream0) (aead_nonce stream0 (position stream0) true)
                                     [Byte.x00]) None [], Ok tt) /\
  enc_inner (fst (Encryptor_flush Toy.prims (mkEncryptor [Byte.x09] None []))) = [Byte.x09] /\
  encryptor (fst (Encryptor_flush Toy.prims (mkEncryptor [Byte.x09] None []))) = None /\
  Encryptor_write Toy.prims (mkEncryptor [Byte.x09] None []) [Byte.x01]
    = (mkEncryptor [Byte.x09] None ([] ++ [Byte.x01]), Ok 1).
Proof.
  split; [reflexivity|]. split; [discriminate|]. split; [reflexivity|].
  split; [vm_compute; lia|].
  apply (flush_emits_terminal_once Toy.prims (mkEncryptor [] (Some stream0) [Byte.x00]) stream0
           (mkEncryptor [Byte.x09] None []) [Byte.x01]);
    [reflexivity | discriminate | reflexivity | vm_compute; lia].
Defined.

(** ** The decryptor's framing *)

Lemma firstn_min_length : forall (a : nat) (l : list byte),
  firstn (Nat.min a (length l)) l = firstn a l.
Proof.
  intros a l. destruct (Nat.le_ge_cases a (length l)).
  - rewrite Nat.min_l by assumption. reflexivity.
  - rewrite Nat.min_r by assumption. rewrite firstn_all, firstn_all2 by assumption. reflexivity.
Qed.

Lemma skipn_min_length : forall (a : nat) (l : list byte),
  skipn (Nat.min a (length l)) l = skipn a l.
Proof.
  intros a l. destruct (Nat.le_ge_cases a (length l)).
  - rewrite Nat.min_l by assumption. reflexivity.
  - rewrite Nat.min_r by assumption. rewrite skipn_all, skipn_all2 by assumption. reflexivity.
Qed.

Lemma firstn_copy_prefix : forall n src out,
  n <= length src -> firstn n (copy_prefix n src out) = firstn n src.
Proof.
  intros n src out H. unfold copy_prefix.
  rewrite firstn_app, firstn_length_le by exact H.
  rewrite Nat.sub_diag, firstn_firstn, Nat.min_id. cbn [firstn]. apply app_nil_r.
Qed.

(** One [read] on an empty plaintext buffer and a non-empty source: the
    first [min 1056 (remaining)] source bytes go to [decrypt_next]. *)
Lemma Decryptor_read_window : forall prims inner s ebuf out,
  length ebuf = CHUNK_SIZE + 32 -> inner <> [] -> (position s <> COUNTER_MAX)%Z ->
  Decryptor_read prims (mkDecryptor inner (Some s) [] ebuf) out =
  let ebuf' := copy_prefix (Nat.min (CHUNK_SIZE + 32) (length inner)) inner ebuf in
  match open prims (aead_key s) (aead_nonce s (position s) false)
             (firstn (CHUNK_SIZE + 32) inner) with
  | Some m =>
      let to_copy := Nat.min (length out) (length m) in
      (mkDecryptor (skipn (CHUNK_SIZE + 32) inner)
                   (Some (mkStream (aead_key s) (stream_nonce s) (position s + 1)%Z))
                   (if Nat.ltb to_copy (length m) then skipn to_copy m else []) ebuf',
       Ok (to_copy, copy_prefix to_copy m out))
  | None => (mkDecryptor (skipn (CHUNK_SIZE + 32) inner) (Some s) [] ebuf', Err Other)
  end.
Proof.
  intros prims inner s ebuf out He Hi Hp.
  unfold Decryptor_read. cbn [dec_buffer dec_inner decryptor encrypted_buf length Nat.eqb negb].
  rewrite He.
  assert (Hm : Nat.eqb (Nat.min (CHUNK_SIZE + 32) (length inner)) 0 = false).
  { apply Nat.eqb_neq. destruct inner; [congruence|]. cbn [length]. arith. }
  rewrite Hm. unfold decrypt_next. apply Z.eqb_neq in Hp. rewrite Hp.
  rewrite firstn_copy_prefix by apply Nat.le_min_r.
  rewrite firstn_min_length, skipn_min_length.
  destruct (open prims _ _ _); reflexivity.
Qed.

(** A [read] on an empty plaintext buffer and an exhausted source. *)
Lemma Decryptor_read_eof : forall prims d ebuf out,
  Decryptor_read prims (mkDecryptor [] d [] ebuf) out = (mkDecryptor [] d [] ebuf, Ok (0, out)).
Proof.
  intros. unfold Decryptor_read. cbn [dec_buffer dec_inner decryptor encrypted_buf length Nat.eqb negb].
  rewrite Nat.min_0_r. reflexivity.
Qed.

(** C6 (code_bug). The decryptor's ciphertext window is [CHUNK_SIZE + 32 =
    1056] bytes, not [1024 + 16 = 1040]: a [read] hands the first
    [min 1056 (remaining)] source bytes to [decrypt_next], always under the
    not-last flag, also for a short final read, and consumes them. *)
Theorem read_uses_1056_byte_windows_not_last : forall prims st s out,
  dec_buffer st = [] -> length (encrypted_buf st) = CHUNK_SIZE + 32 ->
  decryptor st = Some s -> (position s <> COUNTER_MAX)%Z -> dec_inner st <> [] ->
  dec_inner (fst (Decryptor_read prims st out)) = skipn (CHUNK_SIZE + 32) (dec_inner st) /\
  snd (Decryptor_read prims st out) =
    match open prims (aead_key s) (aead_nonce s (position s) false)
               (firstn (CHUNK_SIZE + 32) (dec_inner st)) with
    | Some m => Ok (Nat.min (length out) (length m),
                    copy_prefix (Nat.min (length out) (length m)) m out)
    | None => Err Other
    end.
Proof.
  intros prims [inner dopt buf ebuf] s out Hb He Hd Hp Hi.
  cbn [dec_buffer encrypted_buf decryptor dec_inner] in *. subst buf dopt.
  rewrite Decryptor_read_window by assumption. cbv zeta.
  destruct (open prims _ _ _); split; reflexivity.
Qed.

Lemma read_uses_1056_byte_windows_not_last_witness :
  dec_buffer (dec0 (repeat Byte.x00 1057)) = [] /\
  length (encrypted_buf (dec0 (repeat Byte.x00 1057))) = CHUNK_SIZE + 32 /\
  decryptor (dec0 (repeat Byte.x00 1057)) = Some stream0 /\
  (position stream0 <> COUNTER_MAX)%Z /\ dec_inner (dec0 (repeat Byte.x00 1057)) <> [] /\
  dec_inner (fst (Decryptor_read Toy.prims (dec0 (repeat Byte.x00 1057)) (repeat Byte.x00 8)))
    = skipn (CHUNK_SIZE + 32) (repeat Byte.x00 1057) /\
  snd (Decryptor_read Toy.prims (dec0 (repeat Byte.x00 1057)) (repeat Byte.x00 8)) =
    match open Toy.prims (aead_key stream0) (aead_nonce stream0 (position stream0) false)
               (firstn (CHUNK_SIZE + 32) (repeat Byte.x00 1057)) with
    | Some m => Ok (Nat.min (length (repeat Byte.x00 8)) (length m),
                    copy_prefix (Nat.min (length (repeat Byte.x00 8)) (length m)) m (repeat Byte.x00 8))
    | None => Err Other
    end.
Proof.
  split; [reflexivity|]. split; [vm_compute; reflexivity|]. split; [reflexivity|].
  split; [vm_compute; discriminate|]. split; [vm_compute; discriminate|].
  apply (read_uses_1056_byte_windows_not_last Toy.prims (dec0 (repeat Byte.x00 1057)) stream0);
    [reflexivity | vm_compute; reflexivity | reflexivity | vm_compute; discriminate | vm_compute; discriminate].
Defined.

(** C3 (code_bug). [read] returns [0] as soon as the source is exhausted,
    whether or not a last-flag chunk has been verified ([decrypt_last] is
    never called). Sealing [X ++ T] ([X] one full window, [T] a non-empty
    remainder) from a fresh stream gives a full chunk followed by a
    non-empty terminal chunk; with the terminal chunk removed, reading the
    stream to its end returns [X] and no error. *)
Theorem truncated_stream_reads_short : forall prims k n X T,
  length X = CHUNK_SIZE -> T <> [] -> length T < CHUNK_SIZE ->
  let '(e, _) := Encryptor_write prims (mkEncryptor [] (Some (from_aead k n)) []) (X ++ T) in
  let '(e, _) := Encryptor_flush prims e in
  let c0 := firstn (CHUNK_SIZE + TAG_SIZE) (enc_inner e) in
  let d := mkDecryptor c0 (Some (from_aead k n)) [] (repeat Byte.x00 (CHUNK_SIZE + 32)) in
  CHUNK_SIZE + TAG_SIZE < length (enc_inner e) /\
  snd (read_all prims (read_fuel d) (repeat Byte.x00 CHUNK_SIZE) d []) = Ok X.
Proof.
  intros prims k n X T HX HT HT2.
  unfold Encryptor_write, from_aead. cbn [enc_buffer enc_inner encryptor app].
  pose proof (write_loop_windows prims 1 (S (length (X ++ T))) k n 0 [] X T) as W.
  rewrite W by (rewrite ?length_app; arith). clear W.
  cbn [sealed_windows concat position aead_key stream_nonce app].
  rewrite (firstn_all2 X) by (rewrite HX; lia). rewrite app_nil_r.
  set (c0 := seal prims k (aead_nonce (mkStream k n 0) 0 false) X).
  assert (Hc0 : length c0 = CHUNK_SIZE + TAG_SIZE) by (unfold c0; rewrite seal_len, HX; reflexivity).
  unfold Encryptor_flush. cbn [enc_buffer enc_inner encryptor].
  destruct T as [|t T]; [congruence|]. cbn [length Nat.eqb negb].
  unfold encrypt_last. cbn [position aead_key stream_nonce].
  set (c1 := seal prims k _ (t :: T)).
  assert (Hc1 : length c1 = S (length T) + TAG_SIZE) by (unfold c1; rewrite seal_len; reflexivity).
  cbn [enc_inner].
  rewrite <- Hc0, firstn_app, firstn_all, Nat.sub_diag. cbn [firstn]. rewrite app_nil_r.
  split; [rewrite length_app; lia|].
  unfold read_fuel. cbn [dec_inner dec_buffer length]. rewrite Hc0.
  replace (2 * (CHUNK_SIZE + TAG_SIZE + 0) + 1) with (S (S (2 * (CHUNK_SIZE + TAG_SIZE) - 1)))
    by arith.
  cbn [read_all].
  rewrite Decryptor_read_window;
    [| apply repeat_length
     | intro E; rewrite E in Hc0; cbn [length] in Hc0; arith
     | cbn [position]; arith].
  cbn [position aead_key stream_nonce]. cbv zeta.
  rewrite (firstn_all2 c0) by (rewrite Hc0; arith).
  unfold c0 at 1. rewrite open_seal.
  rewrite repeat_length, HX, Nat.min_id, Nat.ltb_irrefl.
  rewrite (skipn_all2 c0) by (rewrite Hc0; arith).
  replace CHUNK_SIZE with (S (CHUNK_SIZE - 1)) at 1 by arith.
  cbn [read_all]. rewrite Decryptor_read_eof.
  replace (S (CHUNK_SIZE - 1)) with CHUNK_SIZE by arith.
  cbn [snd app]. unfold copy_prefix. rewrite <- HX, firstn_all.
  rewrite (skipn_all2 (repeat _ _)) by (rewrite repeat_length; lia).
  rewrite app_nil_r, firstn_all. reflexivity.
Qed.

Lemma truncated_stream_reads_short_witness :
  length (repeat Byte.x05 CHUNK_SIZE) = CHUNK_SIZE /\ [Byte.x06] <> [] /\
  length [Byte.x06] < CHUNK_SIZE /\
  let '(e, _) := Encryptor_write Toy.prims
                   (mkEncryptor [] (Some (from_aead (repeat Byte.x2a 32) (repeat Byte.x07 19))) [])
                   (repeat Byte.x05 CHUNK_SIZE ++ [Byte.x06]) in
  let '(e, _) := Encryptor_flush Toy.prims e in
  let c0 := firstn (CHUNK_SIZE + TAG_SIZE) (enc_inner e) in
  let d := mkDecryptor c0 (Some (from_aead (repeat Byte.x2a 32) (repeat Byte.x07 19))) []
                       (repeat Byte.x00 (CHUNK_SIZE + 32)) in
  CHUNK_SIZE + TAG_SIZE < length (enc_inner e) /\
  snd (read_all Toy.prims (read_fuel d) (repeat Byte.x00 CHUNK_SIZE) d [])
    = Ok (repeat Byte.x05 CHUNK_SIZE).
Proof.
  split; [apply repeat_length|]. split; [discriminate|]. split; [vm_compute; lia|].
  apply truncated_stream_reads_short; [apply repeat_length | discriminate | vm_compute; lia].
Defined.

(** ** Further properties of the codec *)

Lemma sealed_windows_app_tail : forall prims N s P R,
  N * CHUNK_SIZE <= length P ->
  sealed_windows prims s N (P ++ R) = sealed_windows prims s N P.
Proof.
  induction N as [|N IH]; intros s P R HP; [reflexivity|].
  cbn [sealed_windows].
  rewrite firstn_app, skipn_app.
  replace (CHUNK_SIZE - length P) with 0 by arith. cbn [firstn skipn].
  rewrite app_nil_r, IH by (rewrite length_skipn; arith). reflexivity.
Qed.


Lemma div_chunk : forall L, L = CHUNK_SIZE * (L / CHUNK_SIZE) + L mod CHUNK_SIZE /\
                            L mod CHUNK_SIZE < CHUNK_SIZE.
Proof.
  intros L. split; [apply Nat.div_mod_eq | apply Nat.mod_upper_bound; unfold CHUNK_SIZE; lia].
Qed.

(** [Encryptor::write] in closed form: the buffer plus the new bytes are cut
    into [N = len / 1024] windows, sealed under counters [p .. p+N-1]. *)
Lemma Encryptor_write_closed : forall prims inner k n p b buf N,
  N = length (b ++ buf) / CHUNK_SIZE -> (p + Z.of_nat N <= COUNTER_MAX)%Z ->
  Encryptor_write prims (mkEncryptor inner (Some (mkStream k n p)) b) buf =
  (mkEncryptor (inner ++ concat (sealed_windows prims (mkStream k n p) N (b ++ buf)))
               (Some (mkStream k n (p + Z.of_nat N)%Z))
               (skipn (N * CHUNK_SIZE) (b ++ buf)), Ok (length buf)).
Proof.
  intros prims inner k n p b buf N HN Hp. unfold Encryptor_write.
  cbn [enc_buffer enc_inner encryptor].
  destruct (div_chunk (length (b ++ buf))) as [Hd Hm]. rewrite <- HN in Hd.
  rewrite <- (firstn_skipn (N * CHUNK_SIZE) (b ++ buf)) at 2.
  rewrite (write_loop_windows prims N).
  - rewrite <- (sealed_windows_app_tail prims N _ (firstn (N * CHUNK_SIZE) (b ++ buf)) (skipn (N * CHUNK_SIZE) (b ++ buf))) by (rewrite length_firstn; lia). rewrite firstn_skipn. reflexivity.
  - rewrite firstn_length_le; lia.
  - rewrite length_skipn. lia.
  - assert (0 < CHUNK_SIZE) by arith. nia.
  - exact Hp.
Qed.

(** One step of the [read_all] loop on a positive count. *)
Lemma read_all_step : forall prims f out st st' acc k out',
  Decryptor_read prims st out = (st', Ok (k, out')) -> k <> 0 ->
  read_all prims (S f) out st acc = read_all prims f out st' (acc ++ firstn k out').
Proof.
  intros prims f out st st' acc k out' H Hk. cbn [read_all]. rewrite H.
  destruct k; [contradiction | reflexivity].
Qed.

(** Draining the plaintext buffer of an exhausted decryptor. *)
Lemma read_all_drain : forall prims fuel out st acc,
  out <> [] -> dec_inner st = [] -> length (dec_buffer st) < fuel ->
  snd (read_all prims fuel out st acc) = Ok (acc ++ dec_buffer st).
Proof.
  induction fuel as [|f IH]; intros out [inner d buf ebuf] acc Ho Hi Hf;
    cbn [dec_inner dec_buffer] in *; subst inner; [lia|].
  destruct buf as [|b buf].
  - cbn [read_all]. rewrite Decryptor_read_eof. rewrite app_nil_r. reflexivity.
  - destruct out as [|o os]; [congruence|].
    set (k := Nat.min (length (o :: os)) (length (b :: buf))).
    assert (Hk : 1 <= k /\ k <= length (b :: buf)) by (unfold k; cbn [length]; lia).
    rewrite (read_all_step prims f (o :: os) (mkDecryptor [] d (b :: buf) ebuf)
               (mkDecryptor [] d (skipn k (b :: buf)) ebuf) acc k
               (copy_prefix k (b :: buf) (o :: os))) by (reflexivity || lia).
    rewrite IH by (cbn [dec_inner dec_buffer]; rewrite ?length_skipn; (discriminate || reflexivity || lia)).
    cbn [dec_buffer]. rewrite firstn_copy_prefix by lia.
    rewrite <- app_assoc, firstn_skipn. reflexivity.
Qed.

(** X1: [Encryptor::write] consumes the whole input and touches nothing but
    the full 1024-byte windows of buffer ++ input: they are sealed in order
    under consecutive counters, the counter advances by their number, and the
    tail stays buffered. *)
Theorem write_closed_form : forall prims inner k n p b buf,
  (p + Z.of_nat (length (b ++ buf) / CHUNK_SIZE) <= COUNTER_MAX)%Z ->
  Encryptor_write prims (mkEncryptor inner (Some (mkStream k n p)) b) buf =
  (mkEncryptor (inner ++ concat (sealed_windows prims (mkStream k n p)
                                   (length (b ++ buf) / CHUNK_SIZE) (b ++ buf)))
               (Some (mkStream k n (p + Z.of_nat (length (b ++ buf) / CHUNK_SIZE))%Z))
               (skipn (length (b ++ buf) / CHUNK_SIZE * CHUNK_SIZE) (b ++ buf)),
   Ok (length buf)).
Proof.
  intros prims inner k n p b buf Hp. apply Encryptor_write_closed; [reflexivity | exact Hp].
Qed.

Lemma write_closed_form_witness :
  (0 + Z.of_nat (length ([] ++ repeat Byte.x05 1030) / CHUNK_SIZE) <= COUNTER_MAX)%Z /\
  Encryptor_write Toy.prims (mkEncryptor [] (Some (mkStream (repeat Byte.x2a 32) (repeat Byte.x07 19) 0)) [])
                  (repeat Byte.x05 1030) =
  (mkEncryptor ([] ++ concat (sealed_windows Toy.prims (mkStream (repeat Byte.x2a 32) (repeat Byte.x07 19) 0)
                                   (length ([] ++ repeat Byte.x05 1030) / CHUNK_SIZE) ([] ++ repeat Byte.x05 1030)))
               (Some (mkStream (repeat Byte.x2a 32) (repeat Byte.x07 19)
                               (0 + Z.of_nat (length ([] ++ repeat Byte.x05 1030) / CHUNK_SIZE))%Z))
               (skipn (length ([] ++ repeat Byte.x05 1030) / CHUNK_SIZE * CHUNK_SIZE) ([] ++ repeat Byte.x05 1030)),
   Ok (length (repeat Byte.x05 1030))).
Proof.
  split; [vm_compute; discriminate | apply write_closed_form; vm_compute; discriminate].
Defined.



(** X3: once [flush] has taken the stream encryptor, a [write] that brings
    the buffer to a full window panics on [self.encryptor.as_mut().unwrap()]. *)
Theorem write_after_take_panics : forall prims inner b buf,
  CHUNK_SIZE <= length (b ++ buf) ->
  snd (Encryptor_write prims (mkEncryptor inner None b) buf) = Panic.
Proof.
  intros prims inner b buf H. unfold Encryptor_write.
  cbn [enc_buffer enc_inner encryptor write_loop].
  apply Nat.leb_le in H. rewrite H. reflexivity.
Qed.

Lemma write_after_take_panics_witness :
  CHUNK_SIZE <= length ([Byte.x01] ++ repeat Byte.x05 1023) /\
  snd (Encryptor_write Toy.prims (mkEncryptor [] None [Byte.x01]) (repeat Byte.x05 1023)) = Panic.
Proof.
  split; [vm_compute; lia | apply write_after_take_panics; vm_compute; lia].
Defined.

(** X4: a window that fails authentication is consumed and reported as an
    [Other] error, but the decryptor keeps its counter and stays usable: its
    plaintext buffer is empty, its ciphertext buffer keeps its 1056 bytes,
    and the next read tries the following window under the same counter. *)
Theorem failed_window_keeps_counter : forall prims inner s ebuf out,
  length ebuf = CHUNK_SIZE + 32 -> inner <> [] -> (position s <> COUNTER_MAX)%Z ->
  open prims (aead_key s) (aead_nonce s (position s) false) (firstn (CHUNK_SIZE + 32) inner) = None ->
  snd (Decryptor_read prims (mkDecryptor inner (Some s) [] ebuf) out) = Err Other /\
  dec_inner (fst (Decryptor_read prims (mkDecryptor inner (Some s) [] ebuf) out)) =
    skipn (CHUNK_SIZE + 32) inner /\
  decryptor (fst (Decryptor_read prims (mkDecryptor inner (Some s) [] ebuf) out)) = Some s /\
  dec_buffer (fst (Decryptor_read prims (mkDecryptor inner (Some s) [] ebuf) out)) = [] /\
  length (encrypted_buf (fst (Decryptor_read prims (mkDecryptor inner (Some s) [] ebuf) out))) =
    CHUNK_SIZE + 32.
Proof.
  intros prims inner s ebuf out He Hi Hp Ho.
  rewrite (Decryptor_read_window prims inner s ebuf out He Hi Hp), Ho. cbn [fst snd dec_inner decryptor dec_buffer encrypted_buf].
  split; [reflexivity|split; [reflexivity|split; [reflexivity|split; [reflexivity|]]]]. rewrite copy_prefix_length; lia.
Qed.

Lemma failed_window_keeps_counter_witness :
  let inner := repeat Byte.x00 2000 in
  let ebuf := repeat Byte.x00 (CHUNK_SIZE + 32) in
  (length ebuf = CHUNK_SIZE + 32 /\ inner <> [] /\ (position stream0 <> COUNTER_MAX)%Z /\
   open Toy.prims (aead_key stream0) (aead_nonce stream0 (position stream0) false)
        (firstn (CHUNK_SIZE + 32) inner) = None) /\
  snd (Decryptor_read Toy.prims (mkDecryptor inner (Some stream0) [] ebuf) []) = Err Other /\
  dec_inner (fst (Decryptor_read Toy.prims (mkDecryptor inner (Some stream0) [] ebuf) [])) =
    skipn (CHUNK_SIZE + 32) inner /\
  decryptor (fst (Decryptor_read Toy.prims (mkDecryptor inner (Some stream0) [] ebuf) [])) = Some stream0 /\
  dec_buffer (fst (Decryptor_read Toy.prims (mkDecryptor inner (Some stream0) [] ebuf) [])) = [] /\
  length (encrypted_buf (fst (Decryptor_read Toy.prims (mkDecryptor inner (Some stream0) [] ebuf) []))) =
    CHUNK_SIZE + 32.
Proof.
  intros inner ebuf. split.
  - split; [reflexivity | split; [discriminate | split; [vm_compute; discriminate | vm_compute; reflexivity]]].
  - apply failed_window_keeps_counter;
      [reflexivity | discriminate | vm_compute; discriminate | vm_compute; reflexivity].
Defined.

(** X5: a [read] into an empty buffer that meets a valid window returns
    [Ok 0], the value callers take for end of stream, although it has
    consumed the window, advanced the counter and buffered the whole
    plaintext. *)
Theorem empty_read_consumes_window : forall prims inner s ebuf m,
  length ebuf = CHUNK_SIZE + 32 -> inner <> [] -> (position s <> COUNTER_MAX)%Z ->
  open prims (aead_key s) (aead_nonce s (position s) false) (firstn (CHUNK_SIZE + 32) inner) = Some m ->
  Decryptor_read prims (mkDecryptor inner (Some s) [] ebuf) [] =
  (mkDecryptor (skipn (CHUNK_SIZE + 32) inner)
               (Some (mkStream (aead_key s) (stream_nonce s) (position s + 1)%Z)) m
               (copy_prefix (Nat.min (CHUNK_SIZE + 32) (length inner)) inner ebuf),
   Ok (0, [])).
Proof.
  intros prims inner s ebuf m He Hi Hp Ho.
  rewrite (Decryptor_read_window prims inner s ebuf [] He Hi Hp), Ho. cbn.
  destruct m; reflexivity.
Qed.

Lemma empty_read_consumes_window_witness :
  let inner := Toy.t_seal (aead_key stream0) (aead_nonce stream0 0 false) [Byte.x05; Byte.x06] in
  let ebuf := repeat Byte.x00 (CHUNK_SIZE + 32) in
  (length ebuf = CHUNK_SIZE + 32 /\ inner <> [] /\ (position stream0 <> COUNTER_MAX)%Z /\
   open Toy.prims (aead_key stream0) (aead_nonce stream0 (position stream0) false)
        (firstn (CHUNK_SIZE + 32) inner) = Some [Byte.x05; Byte.x06]) /\
  Decryptor_read Toy.prims (mkDecryptor inner (Some stream0) [] ebuf) [] =
  (mkDecryptor (skipn (CHUNK_SIZE + 32) inner)
               (Some (mkStream (aead_key stream0) (stream_nonce stream0) (position stream0 + 1)%Z))
               [Byte.x05; Byte.x06]
               (copy_prefix (Nat.min (CHUNK_SIZE + 32) (length inner)) inner ebuf),
   Ok (0, [])).
Proof.
  intros inner ebuf. split.
  - split; [reflexivity | split; [discriminate | split; [vm_compute; discriminate | vm_compute; reflexivity]]].
  - apply empty_read_consumes_window;
      [reflexivity | discriminate | vm_compute; discriminate | vm_compute; reflexivity].
Defined.

(** X6: with the source exhausted, a caller reading with any non-empty
    buffer gets back exactly the buffered plaintext, then end of stream. *)
Theorem exhausted_reads_drain_buffer : forall prims d buf ebuf out,
  out <> [] ->
  snd (read_all prims (read_fuel (mkDecryptor [] d buf ebuf)) out (mkDecryptor [] d buf ebuf) []) =
  Ok buf.
Proof.
  intros prims d buf ebuf out Ho.
  rewrite read_all_drain by (cbn [dec_inner dec_buffer read_fuel]; unfold read_fuel;
                              cbn [dec_inner dec_buffer length]; (exact Ho || reflexivity || lia)).
  reflexivity.
Qed.

Lemma exhausted_reads_drain_buffer_witness :
  [Byte.x00; Byte.x00] <> [] /\
  snd (read_all Toy.prims (read_fuel (mkDecryptor [] None (repeat Byte.x05 5) []))
                [Byte.x00; Byte.x00] (mkDecryptor [] None (repeat Byte.x05 5) []) []) =
  Ok (repeat Byte.x05 5).
Proof.
  split; [discriminate | apply exhausted_reads_drain_buffer; discriminate].
Defined.

(** X7: the stream layer round-trips a message that is empty or exactly one
    full window: writing it through a fresh stream [Encryptor], flushing,
    and reading the output back with a fresh stream decryptor and any read
    size [m >= 1] gives the message back. (For such messages the 1056-byte
    window and the missing terminal chunk do not matter.) *)
Theorem one_window_roundtrip : forall prims k n P m,
  (P = [] \/ length P = CHUNK_SIZE) -> 0 < m ->
  snd (read_all prims
         (read_fuel (mkDecryptor
            (enc_inner (fst (Encryptor_flush prims
               (fst (Encryptor_write prims (mkEncryptor [] (Some (from_aead k n)) []) P)))))
            (Some (from_aead k n)) [] (repeat Byte.x00 (CHUNK_SIZE + 32))))
         (repeat Byte.x00 m)
         (mkDecryptor
            (enc_inner (fst (Encryptor_flush prims
               (fst (Encryptor_write prims (mkEncryptor [] (Some (from_aead k n)) []) P)))))
            (Some (from_aead k n)) [] (repeat Byte.x00 (CHUNK_SIZE + 32)))
         []) = Ok P.
Proof.
  intros prims k n P m [HP | HP] Hm.
  - subst P. reflexivity.
  - unfold from_aead.
    rewrite (Encryptor_write_closed prims [] k n 0 [] P 1)
      by (first [cbn [app]; rewrite HP; reflexivity | arith]).
    cbn [fst sealed_windows concat app aead_key stream_nonce position].
    rewrite app_nil_r, (firstn_all2 P) by (rewrite HP; lia).
    rewrite (skipn_all2 P) by (rewrite HP; arith).
    unfold Encryptor_flush. cbn [enc_buffer enc_inner encryptor length Nat.eqb negb fst].
    set (c := seal prims k (aead_nonce (mkStream k n 0) 0 false) P).
    assert (Hc : length c = CHUNK_SIZE + TAG_SIZE) by (unfold c; rewrite seal_len; lia).
    set (t := Nat.min (length (repeat Byte.x00 m)) (length P)).
    assert (Ht : 1 <= t <= CHUNK_SIZE) by (unfold t; rewrite repeat_length; arith).
    assert (Hr : Decryptor_read prims
                   (mkDecryptor c (Some (mkStream k n 0)) [] (repeat Byte.x00 (CHUNK_SIZE + 32)))
                   (repeat Byte.x00 m) =
                 (mkDecryptor [] (Some (mkStream k n 1))
                    (if Nat.ltb t (length P) then skipn t P else [])
                    (copy_prefix (Nat.min (CHUNK_SIZE + 32) (length c)) c
                                 (repeat Byte.x00 (CHUNK_SIZE + 32))),
                  Ok (t, copy_prefix t P (repeat Byte.x00 m)))).
    { rewrite Decryptor_read_window by
        (rewrite ?repeat_length; (reflexivity || (intros E; rewrite E in Hc; discriminate) ||
                                  (cbn; discriminate))).
      cbn [aead_key stream_nonce position].
      rewrite (firstn_all2 c) by arith. unfold c at 1. rewrite open_seal.
      rewrite (skipn_all2 c) by arith. reflexivity. }
    unfold read_fuel. cbn [dec_inner dec_buffer length].
    replace (2 * (length c + 0) + 1) with (S (2 * length c)) by lia.
    rewrite (read_all_step prims _ _ _ _ [] t _ Hr) by lia.
    rewrite read_all_drain.
    + cbn [dec_buffer app]. rewrite firstn_copy_prefix by lia.
      destruct (Nat.ltb_spec t (length P)).
      * apply f_equal, firstn_skipn.
      * rewrite app_nil_r, firstn_all2 by lia. reflexivity.
    + destruct m; [lia | discriminate].
    + reflexivity.
    + cbn [dec_buffer]. destruct (Nat.ltb t (length P)); cbn [length];
        rewrite ?length_skipn; arith.
Qed.

Lemma one_window_roundtrip_witness :
  (repeat Byte.x05 1024 = [] \/ length (repeat Byte.x05 1024) = CHUNK_SIZE) /\ 0 < 100 /\
  snd (read_all Toy.prims
         (read_fuel (mkDecryptor
            (enc_inner (fst (Encryptor_flush Toy.prims
               (fst (Encryptor_write Toy.prims
                  (mkEncryptor [] (Some (from_aead (repeat Byte.x2a 32) (repeat Byte.x07 19))) [])
                  (repeat Byte.x05 1024))))))
            (Some (from_aead (repeat Byte.x2a 32) (repeat Byte.x07 19))) []
            (repeat Byte.x00 (CHUNK_SIZE + 32))))
         (repeat Byte.x00 100)
         (mkDecryptor
            (enc_inner (fst (Encryptor_flush Toy.prims
               (fst (Encryptor_write Toy.prims
                  (mkEncryptor [] (Some (from_aead (repeat Byte.x2a 32) (repeat Byte.x07 19))) [])
                  (repeat Byte.x05 1024))))))
            (Some (from_aead (repeat Byte.x2a 32) (repeat Byte.x07 19))) []
            (repeat Byte.x00 (CHUNK_SIZE + 32)))
         []) = Ok (repeat Byte.x05 1024).
Proof.
  split; [right; reflexivity | split; [lia | apply one_window_roundtrip; [right; reflexivity | lia]]].
Defined.

Lemma copy_prefix_skipn : forall n src out,
  n <= length src -> skipn n (copy_prefix n src out) = skipn n out.
Proof.
  intros n src out H. unfold copy_prefix.
  rewrite skipn_app, firstn_length_le, Nat.sub_diag by exact H.
  rewrite skipn_all2 by (rewrite firstn_length_le; lia). reflexivity.
Qed.

(** X8: [Decryptor::read] keeps the [Read] contract: a successful read
    reports at most [out_buf.len()] bytes, leaves the length of the output
    buffer unchanged and writes nothing past the reported count. *)
Theorem read_respects_out_buf : forall prims st out st' k out',
  Decryptor_read prims st out = (st', Ok (k, out')) ->
  k <= length out /\ length out' = length out /\ skipn k out' = skipn k out.
Proof.
  intros prims [inner d buf ebuf] out st' k out' H.
  unfold Decryptor_read in H. cbn [dec_inner decryptor dec_buffer encrypted_buf] in H.
  destruct (negb (length buf =? 0)).
  - inversion H; subst.
    split; [lia | split; [apply copy_prefix_length; lia | apply copy_prefix_skipn; lia]].
  - destruct (Nat.min (length ebuf) (length inner) =? 0).
    + inversion H; subst. split; [lia | split; reflexivity].
    + destruct d as [s|]; [|discriminate].
      destruct (decrypt_next prims s _) as [d' [m| e |]]; try discriminate.
      inversion H; subst.
      split; [lia | split; [apply copy_prefix_length; lia | apply copy_prefix_skipn; lia]].
Qed.

Lemma read_respects_out_buf_witness :
  Decryptor_read Toy.prims (mkDecryptor [] None (repeat Byte.x05 7) []) (repeat Byte.x00 3) =
    (mkDecryptor [] None (repeat Byte.x05 4) [], Ok (3, repeat Byte.x05 3)) /\
  (3 <= length (repeat Byte.x00 3) /\ length (repeat Byte.x05 3) = length (repeat Byte.x00 3) /\
   skipn 3 (repeat Byte.x05 3) = skipn 3 (repeat Byte.x00 3)).
Proof.
  split; [vm_compute; reflexivity | apply (read_respects_out_buf Toy.prims
    (mkDecryptor [] None (repeat Byte.x05 7) []) (repeat Byte.x00 3)
    (mkDecryptor [] None (repeat Byte.x05 4) [])); vm_compute; reflexivity].
Defined.

(** X9: every successful [read] with a positive count makes progress: the
    bytes left in the source plus the bytes left in the plaintext buffer
    strictly decrease (a window of [n] bytes yields [n - 16] plaintext
    bytes). So a caller's read loop always ends. *)
Theorem read_makes_progress : forall prims st out st' k out',
  Decryptor_read prims st out = (st', Ok (k, out')) -> 0 < k ->
  length (dec_inner st') + length (dec_buffer st') <
  length (dec_inner st) + length (dec_buffer st).
Proof.
  intros prims [inner d buf ebuf] out st' k out' H Hk.
  unfold Decryptor_read in H. cbn [dec_inner decryptor dec_buffer encrypted_buf] in H.
  destruct (negb (length buf =? 0)) eqn:Eb.
  - inversion H; subst. cbn [dec_inner dec_buffer]. rewrite length_skipn. lia.
  - apply negb_false_iff, Nat.eqb_eq, length_zero_iff_nil in Eb. subst buf.
    destruct (Nat.min (length ebuf) (length inner) =? 0) eqn:En.
    + inversion H; subst. lia.
    + apply Nat.eqb_neq in En. destruct d as [s|]; [|discriminate].
      destruct (decrypt_next prims s _) as [d' [m| e |]] eqn:Ed; try discriminate.
      unfold decrypt_next in Ed.
      destruct (position s =? COUNTER_MAX)%Z; [discriminate|].
      destruct (open prims _ _ _) as [m'|] eqn:Eo; [|discriminate].
      inversion Ed; subst m'. apply open_len in Eo.
      rewrite firstn_copy_prefix, length_firstn in Eo by lia.
      inversion H; subst. cbn [dec_inner dec_buffer length app].
      destruct (Nat.min (length out) (length m) <? length m); cbn [length];
        rewrite ?length_skipn; unfold TAG_SIZE in Eo; lia.
Qed.

Lemma read_makes_progress_witness :
  Decryptor_read Toy.prims (mkDecryptor [] None (repeat Byte.x05 7) []) (repeat Byte.x00 3) =
    (mkDecryptor [] None (repeat Byte.x05 4) [], Ok (3, repeat Byte.x05 3)) /\ 0 < 3 /\
  length (dec_inner (mkDecryptor [] None (repeat Byte.x05 4) [])) +
  length (dec_buffer (mkDecryptor [] None (repeat Byte.x05 4) [])) <
  length (dec_inner (mkDecryptor [] None (repeat Byte.x05 7) [])) +
  length (dec_buffer (mkDecryptor [] None (repeat Byte.x05 7) [])).
Proof.
  split; [vm_compute; reflexivity | split; [lia | apply (read_makes_progress Toy.prims
    (mkDecryptor [] None (repeat Byte.x05 7) []) (repeat Byte.x00 3)
    (mkDecryptor [] None (repeat Byte.x05 4) []) 3 (repeat Byte.x05 3)); [vm_compute; reflexivity | lia]]].
Defined.
